(** * Sakura tree-hash encoder (package [sakura], file [sakura.go])

    A shallow embedding of the Go package and the properties of its
    exported operations: [BlockSize.Value], [New], [Encoder.Final] and
    [Encoder.Inner].

    Conventions.
    - Go's fixed-width integers are integers of [Z] with the wrap-around of
      every operation written out ([GoInt]).
    - A byte slice is [option (list byte)]: [None] is the [nil] slice.
    - An [error] is [option error_value]: [None] is the [nil] error.
    - The interfaces of the package ([Hasher], [Hop], [ChainingHop],
      [MessageHop]) are implemented outside of it.  A method call on one
      of them is a node of the program tree [prog]; an environment [env]
      answers the calls, and [run] records every call that is made. *)

From Stdlib Require Import ZArith List String Bool Lia.
From Stdlib.Strings Require Import Byte.
From stdpp Require Import base option gmap.
Import ListNotations.

Local Open Scope Z_scope.

(* ================================================================== *)
(** * Go's signed integers of a given width *)

Module GoInt.

(** The value of the two's complement representation of [z] on [w] bits:
    what a signed operation leaves when its exact result is [z]. *)
Definition wrap (w z : Z) : Z :=
  (z + 2 ^ (w - 1)) mod 2 ^ w - 2 ^ (w - 1).

Definition add (w x y : Z) : Z := wrap w (x + y).
Definition mul (w x y : Z) : Z := wrap w (x * y).

(** [x << n] for an unsigned count [n]: the count has no upper limit, the
    bits shifted out of the [w] bits are lost. *)
Definition shl (w x n : Z) : Z := wrap w (Z.shiftl x n).

(** The values of [int]. *)
Definition in_range (w z : Z) : Prop := - 2 ^ (w - 1) <= z < 2 ^ (w - 1).

(** [int] has 64 bits on the 64-bit targets and 32 on the 32-bit ones. *)
Definition intSize : Z := 64.

End GoInt.

(** [uint8]. *)
Definition uint8 (z : Z) : Prop := 0 <= z < 256.

(* ================================================================== *)
(** * BlockSize *)

(** [type BlockSize struct { Mantissa uint8; Exponent uint8 }] *)
Record BlockSize : Type := mkBlockSize {
  Mantissa : Z;
  Exponent : Z
}.

Definition wf_BlockSize (bs : BlockSize) : Prop :=
  uint8 (Mantissa bs) /\ uint8 (Exponent bs).

(** [1 << bs.Exponent * (2*int(bs.Mantissa) + 1)] on an [int] of [w] bits.
    [<<] and [*] have the same precedence in Go and associate to the left:
    the expression is [(1 << bs.Exponent) * (2*int(bs.Mantissa) + 1)], and
    the untyped constant [1] takes the type [int] of the other factor. *)
Definition Value_on (w : Z) (bs : BlockSize) : Z :=
  GoInt.mul w (GoInt.shl w 1 (Exponent bs))
              (GoInt.add w (GoInt.mul w 2 (Mantissa bs)) 1).

(** [func (bs BlockSize) Value() int] *)
Definition Value (bs : BlockSize) : Z := Value_on GoInt.intSize bs.

(** The block size the documentation of [BlockSize] gives:
    [Pow(2, Exponent) * (2 * Mantissa + 1)]. *)
Definition documented_size (bs : BlockSize) : Z :=
  2 ^ Exponent bs * (2 * Mantissa bs + 1).

(* ================================================================== *)
(** * Values handed across the package boundary *)

(** [[]byte]: [None] is the [nil] slice. *)
Definition slice : Type := option (list byte).

(** [append(b, d...)]: appending no byte to [nil] leaves [nil]. *)
Definition append (b : slice) (d : list byte) : slice :=
  match b, d with
  | None, [] => None
  | None, _ => Some d
  | Some l, _ => Some (l ++ d)
  end.

(** A non-nil [error].  [errors.New] allocates a value that holds the text;
    the embedding keeps the text and leaves the address out. *)
Inductive error_value : Type :=
| errorString (s : string).

Definition error : Type := option error_value.

(** [errors.New(text)] *)
Definition errors_New (text : string) : error := Some (errorString text).

(** [io.EOF] *)
Definition io_EOF : error := errors_New "EOF".

(** [type Hasher func() hash.Hash]: a function value, implemented by the
    caller and named here by the environment's key for it. *)
Definition Hasher : Type := nat.

(** A [hash.Hash] a [Hasher] returned. *)
Definition hash_Hash : Type := nat.

(** [type HashingMode struct] *)
Record HashingMode : Type := mkHashingMode {
  Hash : Hasher;
  Kangaroo : bool;
  Alignment : Z;
  Interleave : BlockSize
}.

(** [type Hop interface]: a value of the interface is [nil] or refers to an
    object of the caller. *)
Inductive Hop : Type :=
| HopNil
| HopAt (id : nat).

(* ================================================================== *)
(** * Calls out of the package *)

(** One constructor per method of the interfaces the package declares or
    imports; the index is the type of what the call returns. *)
Inductive call : Type -> Type :=
| Hasher_call (f : Hasher) : call hash_Hash
    (* [f()] *)
| Hash_Write (h : hash_Hash) (p : list byte) : call (Z * error)
    (* [h.Write(p)] *)
| Hash_Sum (h : hash_Hash) (b : slice) : call slice
    (* [h.Sum(b)] *)
| Hop_ChainingValue (hop : Hop) : call slice
    (* [hop.ChainingValue()] *)
| Hop_SetChainingValue (hop : Hop) (hash : slice) : call unit
    (* [hop.SetChainingValue(hash)] *)
| ChainingHop_Child (hop : Hop) (i : Z) : call Hop
    (* [hop.(ChainingHop).Child(i)] *)
| ChainingHop_Degree (hop : Hop) : call Z
    (* [hop.(ChainingHop).Degree()] *)
| MessageHop_Read (hop : Hop) (n : Z) : call (list byte * error).
    (* [hop.(MessageHop).Read(p)] with [len(p) = n]: the bytes stored in [p] *)

(** A function body: it returns, or makes a call and goes on with the answer. *)
Inductive prog (A : Type) : Type :=
| Return (a : A)
| Do {X : Type} (c : call X) (k : X -> prog A).

Arguments Return {A} a.
Arguments Do {A X} c k.

Fixpoint prog_bind {A B : Type} (p : prog A) (f : A -> prog B) : prog B :=
  match p with
  | Return a => f a
  | Do c k => Do c (fun x => prog_bind (k x) f)
  end.

Definition perform {X : Type} (c : call X) : prog X := Do c Return.

Notation "'let!' x ':=' p 'in' q" := (prog_bind p (fun x => q))
  (at level 10, x name, p at level 100, q at level 200).

(** A call that was made, with its answer. *)
Inductive made : Type :=
| Made {X : Type} (c : call X) (x : X).

(** The caller's side: a state [W] of its objects and what each call does
    to it. *)
Definition env (W : Type) : Type := forall X : Type, call X -> W -> X * W.

Record outcome (W A : Type) : Type := mkOutcome {
  result : A;
  world : W;
  trace : list made
}.

Arguments mkOutcome {W A} result world trace.
Arguments result {W A} o.
Arguments world {W A} o.
Arguments trace {W A} o.

Fixpoint run {W A : Type} (E : env W) (p : prog A) (w : W) : outcome W A :=
  match p with
  | Return a => mkOutcome a w []
  | Do c k =>
      let (x, w') := E _ c w in
      let o := run E (k x) w' in
      mkOutcome (result o) (world o) (Made c x :: trace o)
  end.

(* ================================================================== *)
(** * Encoder *)

(** [type Encoder struct { mode HashingMode }] *)
Record Encoder : Type := mkEncoder {
  mode : HashingMode
}.

(** [func New(mode HashingMode) *Encoder] *)
Definition New (mode : HashingMode) : Encoder := mkEncoder mode.

(** [func (e *Encoder) Final(hop Hop) (hash []byte, err error)] *)
Definition Final (e : Encoder) (hop : Hop) : prog (slice * error) :=
  Return (None, errors_New "not implemented").

(** [func (e *Encoder) Inner(hop Hop) (hash []byte, err error)] *)
Definition Inner (e : Encoder) (hop : Hop) : prog (slice * error) :=
  Return (None, errors_New "not implemented").

(** The two results of a call of [Final] or [Inner]. *)
Definition digest {W : Type} (o : outcome W (slice * error)) : slice :=
  fst (result o).

Definition failure {W : Type} (o : outcome W (slice * error)) : error :=
  snd (result o).

(* ================================================================== *)
(** * An in-memory implementation of the interfaces

    Objects a caller can hand to the encoder: hop trees held in a store,
    with a cache slot per hop, and a base hash that accumulates what is
    written to it.  It gives the properties below concrete inputs. *)

Module Mem.

Inductive hop_kind : Type :=
| Chaining (children : list Hop)
    (* implements [ChainingHop] *)
| Message (rest : list byte) (broken : bool).
    (* implements [MessageHop]: the bytes not read yet; a broken stream
       fails every [Read] *)

Record hop_obj : Type := mkHop {
  kind : hop_kind;
  slot : slice;          (* what [ChainingValue] returns *)
  retains : bool         (* does [SetChainingValue] keep the value? *)
}.

Record state : Type := mkState {
  hops : gmap nat hop_obj;
  hashes : gmap nat (list byte)   (* what was written to each hash *)
}.

Definition set_hop (i : nat) (o : hop_obj) (s : state) : state :=
  mkState (<[i := o]> (hops s)) (hashes s).

Definition set_hash (h : nat) (acc : list byte) (s : state) : state :=
  mkState (hops s) (<[h := acc]> (hashes s)).

Definition find (s : state) (hop : Hop) : option hop_obj :=
  match hop with
  | HopNil => None
  | HopAt i => hops s !! i
  end.

Definition ChainingValue (hop : Hop) (s : state) : slice * state :=
  match find s hop with
  | Some o => (slot o, s)
  | None => (None, s)
  end.

Definition SetChainingValue (hop : Hop) (v : slice) (s : state) : unit * state :=
  match hop, find s hop with
  | HopAt i, Some o =>
      if retains o then (tt, set_hop i (mkHop (kind o) v true) s) else (tt, s)
  | _, _ => (tt, s)
  end.

Definition Degree (hop : Hop) (s : state) : Z * state :=
  match find s hop with
  | Some (mkHop (Chaining cs) _ _) => (Z.of_nat (length cs), s)
  | _ => (0, s)
  end.

Definition Child (hop : Hop) (i : Z) (s : state) : Hop * state :=
  match find s hop with
  | Some (mkHop (Chaining cs) _ _) =>
      if (0 <=? i) then (nth (Z.to_nat i) cs HopNil, s) else (HopNil, s)
  | _ => (HopNil, s)
  end.

Definition Read (hop : Hop) (n : Z) (s : state) : (list byte * error) * state :=
  match hop, find s hop with
  | HopAt i, Some (mkHop (Message rest broken) v r) =>
      if broken then (([], errors_New "read failed"), s)
      else match rest with
           | [] => (([], io_EOF), s)
           | _ =>
               let k := Z.to_nat n in
               ((firstn k rest, None),
                set_hop i (mkHop (Message (skipn k rest) false) v r) s)
           end
  | _, _ => (([], errors_New "not a message hop"), s)
  end.

(** The base hash: [sum] is the function it computes of all that was
    written. *)
Definition NewHash (s : state) : hash_Hash * state :=
  let h := size (hashes s) in (h, set_hash h [] s).

Definition Write (h : hash_Hash) (p : list byte) (s : state) : (Z * error) * state :=
  ((Z.of_nat (length p), None),
   set_hash h (default [] (hashes s !! h) ++ p) s).

Definition Sum (sum : list byte -> list byte) (h : hash_Hash) (b : slice)
    (s : state) : slice * state :=
  (append b (sum (default [] (hashes s !! h))), s).

Definition handle (sum : list byte -> list byte) : env state :=
  fun X c =>
    match c in call X return state -> X * state with
    | Hasher_call _ => NewHash
    | Hash_Write h p => Write h p
    | Hash_Sum h b => Sum sum h b
    | Hop_ChainingValue hop => ChainingValue hop
    | Hop_SetChainingValue hop v => SetChainingValue hop v
    | ChainingHop_Child hop i => Child hop i
    | ChainingHop_Degree hop => Degree hop
    | MessageHop_Read hop n => Read hop n
    end.

(** A hop tree of depth below [depth] all of whose hops are in the store
    and all of whose streams can be read. *)
Fixpoint well_formed (depth : nat) (s : state) (hop : Hop) : bool :=
  match depth with
  | O => false
  | S d =>
      match find s hop with
      | Some (mkHop (Chaining cs) _ _) => forallb (well_formed d s) cs
      | Some (mkHop (Message _ broken) _ _) => negb broken
      | None => false
      end
  end.

(** A base hash for the examples: the sum of the bytes modulo 256, as a
    digest of one byte. *)
Definition sum8 (l : list byte) : list byte :=
  [default x00
     (Byte.of_N (fold_right (fun b a => (Byte.to_N b + a) mod 256)%N 0%N l))].

End Mem.

(* ================================================================== *)
(** * The scenario of the specification *)

(** Feeding [data] into one fresh instance of the base hash [f] and taking
    its digest. *)
Definition hash_once (f : Hasher) (data : list byte) : prog slice :=
  let! h := perform (Hasher_call f) in
  let! _ := perform (Hash_Write h data) in
  perform (Hash_Sum h None).

Definition ab : list byte := [x61; x62].
Definition cd : list byte := [x63; x64].

(** [kangaroo=false], [alignment=0], [interleave=0]. *)
Definition scenario_mode : HashingMode :=
  mkHashingMode 0%nat false 0 (mkBlockSize 0 0).

(** A root chaining hop of degree 2 over the message hops ["ab"] and
    ["cd"]; every hop keeps the chaining value it is given. *)
Definition scenario_state : Mem.state :=
  Mem.mkState
    (<[0%nat := Mem.mkHop (Mem.Chaining [HopAt 1; HopAt 2]) None true]>
       (<[1%nat := Mem.mkHop (Mem.Message ab false) None true]>
          (<[2%nat := Mem.mkHop (Mem.Message cd false) None true]> ∅)))
    ∅.

Definition scenario_root : Hop := HopAt 0.

(** The byte string the specification has [Final] hash in the scenario,
    for an encoding [degree] of the degree 2:
    ["ab" || "cd" || degree=2 || final-marker=0x01]. *)
Definition scenario_content (degree : list byte) : list byte :=
  ab ++ cd ++ degree ++ [x01].

(* ================================================================== *)
(** * Reading a trace *)

(** The calls by kind. *)
Definition is_hasher_call (m : made) : bool :=
  match m with
  | Made c _ => match c with Hasher_call _ => true | _ => false end
  end.

Definition is_hash_call (m : made) : bool :=
  match m with
  | Made c _ =>
      match c with
      | Hasher_call _ | Hash_Write _ _ | Hash_Sum _ _ => true
      | _ => false
      end
  end.

Definition is_read (m : made) : bool :=
  match m with
  | Made c _ => match c with MessageHop_Read _ _ => true | _ => false end
  end.

Definition is_enumeration (m : made) : bool :=
  match m with
  | Made c _ =>
      match c with
      | ChainingHop_Child _ _ | ChainingHop_Degree _ => true
      | _ => false
      end
  end.

Definition is_set_chaining_value (m : made) : bool :=
  match m with
  | Made c _ => match c with Hop_SetChainingValue _ _ => true | _ => false end
  end.

(** The error a [Read] answered with, [nil] for any other call. *)
Definition read_error (m : made) : error :=
  match m with
  | Made c x =>
      match c in call X return X -> error with
      | MessageHop_Read _ _ => fun r => snd r
      | _ => fun _ => None
      end x
  end.

(** [hop.SetChainingValue(v)] is among the calls. *)
Definition caches (hop : Hop) (v : slice) (t : list made) : Prop :=
  In (Made (Hop_SetChainingValue hop v) tt) t.

(** The two kinds of error of the specification, for an error [err] that a
    call with the trace [t] returned.
    - [SourceReadFailed]: a [Read] of a message hop answered [err].
    - [HashFactoryFailed]: the base hash is at the origin of [err].  The
      methods of [hash.Hash] that build and finish a digest return no
      error, so the widest reading is taken: some call of the factory or
      of one of its hashes was made. *)
Definition SourceReadFailed (err : error) (t : list made) : Prop :=
  err <> None /\ exists m, In m t /\ read_error m = err.

Definition HashFactoryFailed (err : error) (t : list made) : Prop :=
  err <> None /\ exists m, In m t /\ is_hash_call m = true.

(** A call that ends the way the specification has [Final] and [Inner] end
    on a well-formed tree. *)
Definition succeeds {W : Type} (o : outcome W (slice * error)) : Prop :=
  digest o <> None /\ failure o = None.

(** The scenario, run. *)
Definition scenario_Final : outcome Mem.state (slice * error) :=
  run (Mem.handle Mem.sum8) (Final (New scenario_mode) scenario_root)
      scenario_state.

Definition scenario_Inner : outcome Mem.state (slice * error) :=
  run (Mem.handle Mem.sum8) (Inner (New scenario_mode) scenario_root)
      scenario_state.



(* ================================================================== *)
(** * Arithmetic of [int] *)

Lemma wrap_in_range (w z : Z) :
  0 < w -> GoInt.in_range w z -> GoInt.wrap w z = z.
Proof.
  unfold GoInt.in_range, GoInt.wrap. intros Hw Hz.
  assert (Hp : 2 ^ w = 2 * 2 ^ (w - 1)).
  { replace w with (Z.succ (w - 1)) at 1 by lia. apply Z.pow_succ_r. lia. }
  rewrite Z.mod_small; lia.
Qed.

Lemma wrap_multiple (w k : Z) :
  0 < w -> GoInt.wrap w (k * 2 ^ w) = 0.
Proof.
  intros Hw. unfold GoInt.wrap.
  assert (Hp : 2 ^ w = 2 * 2 ^ (w - 1)).
  { replace w with (Z.succ (w - 1)) at 1 by lia. apply Z.pow_succ_r. lia. }
  assert (Hpos : 0 < 2 ^ (w - 1)) by (apply Z.pow_pos_nonneg; lia).
  rewrite Z.add_comm, Z.mod_add by lia.
  rewrite Z.mod_small; lia.
Qed.

Lemma shl_1 (w n : Z) : 0 <= n -> GoInt.shl w 1 n = GoInt.wrap w (2 ^ n).
Proof.
  intros Hn. unfold GoInt.shl. now rewrite Z.shiftl_1_l.
Qed.

Lemma odd_factor (w m : Z) :
  10 <= w -> uint8 m ->
  GoInt.add w (GoInt.mul w 2 m) 1 = 2 * m + 1.
Proof.
  unfold uint8. intros Hw Hm.
  assert (H10 : 2 ^ 9 <= 2 ^ (w - 1)) by (apply Z.pow_le_mono_r; lia).
  change (2 ^ 9) with 512 in H10.
  unfold GoInt.add, GoInt.mul.
  rewrite (wrap_in_range w (2 * m)) by (unfold GoInt.in_range; lia).
  apply wrap_in_range; unfold GoInt.in_range; lia.
Qed.

(** Where the documented size fits [int], [Value] is the documented size. *)
Lemma Value_on_exact (w : Z) (bs : BlockSize) :
  10 <= w -> wf_BlockSize bs -> documented_size bs < 2 ^ (w - 1) ->
  Value_on w bs = documented_size bs.
Proof.
  unfold wf_BlockSize, documented_size, Value_on.
  destruct bs as [m e]; cbn [Mantissa Exponent].
  intros Hw [Hm He] Hfit.
  assert (Hm' := Hm). assert (He' := He). unfold uint8 in Hm', He'.
  assert (Hpos : 0 < 2 ^ e) by (apply Z.pow_pos_nonneg; lia).
  rewrite odd_factor by assumption.
  rewrite shl_1 by lia.
  rewrite (wrap_in_range w (2 ^ e)) by (unfold GoInt.in_range; nia).
  unfold GoInt.mul. apply wrap_in_range; unfold GoInt.in_range; nia.
Qed.

(** From the exponent [w] on, the shift leaves nothing. *)
Lemma Value_on_large_exponent (w : Z) (bs : BlockSize) :
  0 < w -> w <= Exponent bs -> Value_on w bs = 0.
Proof.
  unfold Value_on. destruct bs as [m e]; cbn [Mantissa Exponent].
  intros Hw He.
  rewrite shl_1 by lia.
  replace (2 ^ e) with (2 ^ (e - w) * 2 ^ w)
    by (rewrite <- Z.pow_add_r by lia; f_equal; lia).
  rewrite wrap_multiple by lia.
  unfold GoInt.mul. rewrite Z.mul_0_l. apply (wrap_multiple w 0 Hw).
Qed.

(* ================================================================== *)
(** * BlockSize.Value *)

(** X3: the two values the specification lists: [Mantissa=0, Exponent=0] gives
    1 and [Mantissa=3, Exponent=2] gives 28, on both widths of [int]. *)
Example Value_listed :
  Value (mkBlockSize 0 0) = 1 /\ Value (mkBlockSize 3 2) = 28 /\
  Value_on 32 (mkBlockSize 0 0) = 1 /\ Value_on 32 (mkBlockSize 3 2) = 28.
Proof. repeat split; reflexivity. Qed.

(** On an [int] of 64 bits: where the documented size is below [2^63],
    [Value] returns it, and it is positive. *)
Lemma Value_fits (bs : BlockSize) :
  wf_BlockSize bs -> documented_size bs < 2 ^ 63 ->
  Value bs = documented_size bs /\ 0 < Value bs.
Proof.
  intros Hwf Hfit. unfold Value, GoInt.intSize.
  rewrite Value_on_exact by (assumption || lia).
  split; [reflexivity|].
  destruct Hwf as [Hm He]. unfold uint8 in Hm, He. unfold documented_size.
  assert (0 < 2 ^ Exponent bs) by (apply Z.pow_pos_nonneg; lia). nia.
Qed.

(** X1: on an [int] of 64 bits, where [2^Exponent * (2*Mantissa + 1)] is
    below [2^63], [Value]
    returns exactly that number, and it is positive. *)
Theorem Value_exact (bs : BlockSize) :
  wf_BlockSize bs -> documented_size bs < 2 ^ 63 ->
  Value bs = documented_size bs /\ 0 < Value bs.
Proof.
  intros [Hm He] Hfit. unfold Value, GoInt.intSize.
  rewrite Value_on_exact by (try split; assumption || lia).
  split; [reflexivity|].
  unfold uint8 in Hm, He. unfold documented_size in *.
  assert (0 < 2 ^ Exponent bs) by (apply Z.pow_pos_nonneg; lia). nia.
Qed.

Lemma Value_exact_witness :
  Value (mkBlockSize 3 2) = documented_size (mkBlockSize 3 2) /\
  0 < Value (mkBlockSize 3 2).
Proof.
  apply (Value_exact (mkBlockSize 3 2)).
  - unfold wf_BlockSize, uint8; simpl; lia.
  - vm_compute; reflexivity.
Defined.

(** X2: on an [int] of 64 bits, for every exponent up to 54, whatever the
    mantissa, [Value] returns the documented size, a positive number. *)
Theorem Value_exact_small_exponent (bs : BlockSize) :
  wf_BlockSize bs -> Exponent bs <= 54 ->
  Value bs = documented_size bs /\ 0 < Value bs.
Proof.
  intros Hwf He. apply Value_fits; [assumption|].
  destruct Hwf as [Hm He']. unfold uint8 in Hm, He'. unfold documented_size.
  assert (Hle : 2 ^ Exponent bs <= 2 ^ 54) by (apply Z.pow_le_mono_r; lia).
  assert (Hpos : 0 < 2 ^ Exponent bs) by (apply Z.pow_pos_nonneg; lia).
  change (2 ^ 63) with (2 ^ 54 * 512).
  apply Z.le_lt_trans with (2 ^ 54 * (2 * Mantissa bs + 1)).
  - apply Z.mul_le_mono_nonneg_r; lia.
  - apply Z.mul_lt_mono_pos_l; [reflexivity | lia].
Qed.

Lemma Value_exact_small_exponent_witness :
  Value (mkBlockSize 255 54) = documented_size (mkBlockSize 255 54) /\
  0 < Value (mkBlockSize 255 54).
Proof.
  apply (Value_exact_small_exponent (mkBlockSize 255 54)).
  - unfold wf_BlockSize, uint8; simpl; lia.
  - simpl; lia.
Defined.

(** X4: on an [int] of 64 bits, for a fixed mantissa [Value] grows with the
    exponent, as long as the
    documented size of the larger exponent is below [2^63]. *)
Theorem Value_monotonic (m e1 e2 : Z) :
  uint8 m -> uint8 e1 -> uint8 e2 -> e1 <= e2 ->
  documented_size (mkBlockSize m e2) < 2 ^ 63 ->
  Value (mkBlockSize m e1) <= Value (mkBlockSize m e2).
Proof.
  intros Hm He1 He2 Hle Hfit.
  assert (Hm' := Hm). assert (He1' := He1). unfold uint8 in Hm', He1'.
  assert (Hpow : 2 ^ e1 <= 2 ^ e2) by (apply Z.pow_le_mono_r; lia).
  assert (Hsz : documented_size (mkBlockSize m e1)
                <= documented_size (mkBlockSize m e2)).
  { unfold documented_size; cbn [Mantissa Exponent].
    apply Z.mul_le_mono_nonneg_r; lia. }
  destruct (Value_fits (mkBlockSize m e1)) as [-> _];
    [split; assumption | lia |].
  destruct (Value_fits (mkBlockSize m e2)) as [-> _];
    [split; assumption | lia |].
  exact Hsz.
Qed.

Lemma Value_monotonic_witness :
  Value (mkBlockSize 3 2) <= Value (mkBlockSize 3 5).
Proof.
  apply (Value_monotonic 3 2 5); unfold uint8; try lia.
  vm_compute; reflexivity.
Defined.

(** X5: from the exponent 64 on [Value] returns 0. *)
Theorem Value_zero (bs : BlockSize) :
  64 <= Exponent bs -> Value bs = 0.
Proof.
  intros He. apply Value_on_large_exponent; [reflexivity | exact He].
Qed.

Lemma Value_zero_witness : Value (mkBlockSize 7 200) = 0.
Proof. apply (Value_zero (mkBlockSize 7 200)). simpl; lia. Defined.

(** C3: [Value] is documented to return [2^Exponent * (2*Mantissa + 1)] for
    every block size.  At [Mantissa=0, Exponent=64], a block size of the
    type, the documented size is [2^64] and [Value] returns 0, on an [int]
    of 64 bits and on one of 32. *)
Theorem Value_differs_from_documented_size :
  wf_BlockSize (mkBlockSize 0 64) /\
  documented_size (mkBlockSize 0 64) = 18446744073709551616 /\
  Value (mkBlockSize 0 64) = 0 /\
  Value_on 32 (mkBlockSize 0 64) = 0 /\
  Value (mkBlockSize 0 64) <> documented_size (mkBlockSize 0 64).
Proof.
  split; [unfold wf_BlockSize, uint8; simpl; lia|].
  repeat split; try reflexivity.
  vm_compute. discriminate.
Qed.

(** C4: [Value] is not always positive.  At [Mantissa=0, Exponent=63] it
    returns [-2^63] on an [int] of 64 bits, at [Mantissa=255, Exponent=55]
    a negative number although the exponent is below 63, and at
    [Mantissa=255, Exponent=255] it returns 0 (on 32 bits as well). *)
Theorem Value_not_positive :
  wf_BlockSize (mkBlockSize 0 63) /\
  Value (mkBlockSize 0 63) = - 2 ^ 63 /\
  Value (mkBlockSize 255 55) = - 2 ^ 55 /\
  wf_BlockSize (mkBlockSize 255 255) /\
  Value (mkBlockSize 255 255) = 0 /\
  Value_on 32 (mkBlockSize 255 255) = 0 /\
  ~ 0 < Value (mkBlockSize 255 255).
Proof.
  repeat split; try reflexivity;
    try (unfold uint8; simpl; lia).
  vm_compute. discriminate.
Qed.

(* ================================================================== *)
(** * Encoder.Final and Encoder.Inner *)

Section Encoder_calls.

Context {W : Type} (E : env W).

(** Both functions return at once: the nil digest, a new error, no call
    made and the caller's objects as they were. *)
Lemma run_Final (e : Encoder) (hop : Hop) (w : W) :
  run E (Final e hop) w
  = mkOutcome (None, errors_New "not implemented") w [].
Proof. reflexivity. Qed.

Lemma run_Inner (e : Encoder) (hop : Hop) (w : W) :
  run E (Inner e hop) w
  = mkOutcome (None, errors_New "not implemented") w [].
Proof. reflexivity. Qed.

End Encoder_calls.

(** [New] keeps the mode it is given. *)
Lemma New_mode (m : HashingMode) : mode (New m) = m.
Proof. reflexivity. Qed.

(** In the in-memory implementation, hashing [data] once gives the digest
    [sum data] of the base hash, a non-nil slice when the digest has a
    byte. *)
Lemma hash_once_Mem (sum : list byte -> list byte) (f : Hasher)
    (data : list byte) (s : Mem.state) :
  result (run (Mem.handle sum) (hash_once f data) s) = append None (sum data).
Proof.
  unfold hash_once, perform. cbn [prog_bind run result].
  unfold Mem.handle, Mem.NewHash, Mem.Write, Mem.Sum, Mem.set_hash.
  cbn [fst snd Mem.hashes result].
  rewrite !lookup_insert_eq. reflexivity.
Qed.

(* ------------------------------------------------------------------ *)
(** ** C1 *)

(** C1, as stated, fails: in the scenario, with the byte sum as base hash,
    [Final(root)] does not return the digest of
    ["ab" || "cd" || degree=2 || 0x01], whatever bytes encode the degree.
    That digest is a slice of one byte; [Final] returns the nil slice and
    an error. *)
Lemma Final_scenario_is_not_the_digest :
  ~ exists degree : list byte,
      result scenario_Final
      = (result (run (Mem.handle Mem.sum8)
                     (hash_once (Hash scenario_mode) (scenario_content degree))
                     scenario_state),
         None).
Proof.
  intros [degree H]. rewrite hash_once_Mem in H.
  unfold scenario_Final in H. rewrite run_Final in H.
  cbn [result] in H. discriminate H.
Qed.

(** C1, amended: in the scenario [Final(root)] returns the nil digest and
    the error "not implemented", whatever the base hash computes; it
    creates no instance of the base hash, reads neither message hop and
    leaves the hops as they were. *)
Theorem Final_scenario (sum : list byte -> list byte) :
  result (run (Mem.handle sum) (Final (New scenario_mode) scenario_root)
              scenario_state)
  = (None, errors_New "not implemented") /\
  trace (run (Mem.handle sum) (Final (New scenario_mode) scenario_root)
             scenario_state) = [] /\
  world (run (Mem.handle sum) (Final (New scenario_mode) scenario_root)
             scenario_state) = scenario_state.
Proof. rewrite run_Final. repeat split. Qed.

(* ------------------------------------------------------------------ *)
(** ** C2 *)

(** C2, as stated, fails: the scenario is a well-formed tree of depth 2
    whose streams can be read and whose base hash works, and neither
    [Final] nor [Inner] returns a digest with a nil error on it. *)
Lemma well_formed_tree_fails :
  Mem.well_formed 2 scenario_state scenario_root = true /\
  ~ succeeds scenario_Final /\
  ~ succeeds scenario_Inner.
Proof.
  split; [vm_compute; reflexivity|].
  unfold succeeds, scenario_Final, scenario_Inner.
  rewrite ?run_Final, ?run_Inner.
  split; intros [Hd _]; apply Hd; reflexivity.
Qed.

(** C2, amended: for every hop, every mode, every implementation of the
    interfaces and every state of the caller's objects, [Inner] and [Final]
    return the nil digest and the non-nil error "not implemented".  The
    encoder creates the error itself: the call makes no call of its own,
    so the error is handed on neither from a message hop's stream nor from
    the base hash. *)
Theorem Final_Inner_not_implemented {W : Type} (E : env W) (e : Encoder)
    (hop : Hop) (w : W) :
  (result (run E (Final e hop) w) = (None, errors_New "not implemented") /\
   failure (run E (Final e hop) w) <> None /\
   trace (run E (Final e hop) w) = [] /\
   ~ SourceReadFailed (failure (run E (Final e hop) w))
                      (trace (run E (Final e hop) w)) /\
   ~ HashFactoryFailed (failure (run E (Final e hop) w))
                       (trace (run E (Final e hop) w))) /\
  (result (run E (Inner e hop) w) = (None, errors_New "not implemented") /\
   failure (run E (Inner e hop) w) <> None /\
   trace (run E (Inner e hop) w) = [] /\
   ~ SourceReadFailed (failure (run E (Inner e hop) w))
                      (trace (run E (Inner e hop) w)) /\
   ~ HashFactoryFailed (failure (run E (Inner e hop) w))
                       (trace (run E (Inner e hop) w))).
Proof.
  rewrite ?run_Final, ?run_Inner.
  unfold SourceReadFailed, HashFactoryFailed. cbn [trace].
  repeat split; try discriminate; intros [_ [m [[] _]]].
Qed.

(* ------------------------------------------------------------------ *)
(** ** C5 *)



(* ------------------------------------------------------------------ *)
(** ** C6 *)

(** C6, as stated, fails: [Inner] on the root of the scenario, a hop that
    keeps what [SetChainingValue] gives it, does not call
    [SetChainingValue] with its result (nor with any other value), and the
    cache slot of the root is empty afterwards. *)
Lemma Inner_does_not_cache :
  ~ caches scenario_root (digest scenario_Inner) (trace scenario_Inner) /\
  ~ (exists v, caches scenario_root v (trace scenario_Inner)) /\
  fst (Mem.ChainingValue scenario_root (world scenario_Inner)) = None.
Proof.
  unfold scenario_Inner. rewrite run_Inner. unfold caches. cbn [trace world].
  split; [intros []|]. split; [intros [v []]|].
  vm_compute. reflexivity.
Qed.

(** C6, amended: neither [Final] nor [Inner] calls [SetChainingValue] on
    any hop with any value; the encoder stores nothing in a cache slot. *)
Theorem encoder_never_caches {W : Type} (E : env W) (e : Encoder)
    (hop : Hop) (w : W) :
  (forall h v, ~ caches h v (trace (run E (Final e hop) w))) /\
  (forall h v, ~ caches h v (trace (run E (Inner e hop) w))) /\
  existsb is_set_chaining_value (trace (run E (Final e hop) w)) = false /\
  existsb is_set_chaining_value (trace (run E (Inner e hop) w)) = false.
Proof.
  rewrite ?run_Final, ?run_Inner. unfold caches. cbn [trace].
  repeat split; intros h v [].
Qed.

(* ------------------------------------------------------------------ *)
(** ** C7 *)

(** C7: [Final] returns the same digest on every call for the same hop and
    mode, whatever state the caller's objects are in at each call, among
    them the state the first call left; and so does [Inner]. *)
Theorem Final_Inner_deterministic {W : Type} (E : env W) (e : Encoder)
    (hop : Hop) (w1 w2 : W) :
  digest (run E (Final e hop) w1) = digest (run E (Final e hop) w2) /\
  digest (run E (Inner e hop) w1) = digest (run E (Inner e hop) w2) /\
  digest (run E (Final e hop) w1)
  = digest (run E (Final e hop) (world (run E (Final e hop) w1))) /\
  digest (run E (Inner e hop) w1)
  = digest (run E (Inner e hop) (world (run E (Inner e hop) w1))).
Proof. rewrite ?run_Final, ?run_Inner. repeat split. Qed.

(* ------------------------------------------------------------------ *)
(** ** C8 *)

(** C8, as stated, fails: the error [Final] and [Inner] return in the
    scenario is not nil, no [Read] of a message hop answered it and no
    call of the base hash was made. *)
Lemma not_implemented_is_neither_kind :
  failure scenario_Final <> None /\
  ~ SourceReadFailed (failure scenario_Final) (trace scenario_Final) /\
  ~ HashFactoryFailed (failure scenario_Final) (trace scenario_Final) /\
  failure scenario_Inner <> None /\
  ~ SourceReadFailed (failure scenario_Inner) (trace scenario_Inner) /\
  ~ HashFactoryFailed (failure scenario_Inner) (trace scenario_Inner).
Proof.
  unfold scenario_Final, scenario_Inner. rewrite ?run_Final, ?run_Inner.
  unfold SourceReadFailed, HashFactoryFailed. cbn [trace].
  repeat split; try discriminate; intros [_ [m [[] _]]].
Qed.

(** C8, amended: the error [Inner] and [Final] return is always the one
    they create themselves with [errors.New("not implemented")]; it comes
    neither from a message hop's stream nor from the base hash. *)
Theorem only_error_is_not_implemented {W : Type} (E : env W) (e : Encoder)
    (hop : Hop) (w : W) :
  (failure (run E (Final e hop) w) = errors_New "not implemented" /\
   ~ SourceReadFailed (failure (run E (Final e hop) w))
                      (trace (run E (Final e hop) w)) /\
   ~ HashFactoryFailed (failure (run E (Final e hop) w))
                       (trace (run E (Final e hop) w))) /\
  (failure (run E (Inner e hop) w) = errors_New "not implemented" /\
   ~ SourceReadFailed (failure (run E (Inner e hop) w))
                      (trace (run E (Inner e hop) w)) /\
   ~ HashFactoryFailed (failure (run E (Inner e hop) w))
                       (trace (run E (Inner e hop) w))).
Proof.
  rewrite ?run_Final, ?run_Inner.
  unfold SourceReadFailed, HashFactoryFailed. cbn [trace].
  repeat split; intros [_ [m [[] _]]].
Qed.

(* ------------------------------------------------------------------ *)
(** ** C9 *)

(** C9: when [Inner] or [Final] returns a non-nil error, the digest it
    returns is nil. *)
Theorem error_means_nil_digest {W : Type} (E : env W) (e : Encoder)
    (hop : Hop) (w : W) (o : outcome W (slice * error)) :
  o = run E (Final e hop) w \/ o = run E (Inner e hop) w ->
  failure o <> None ->
  digest o = None.
Proof.
  intros [-> | ->] _; [rewrite run_Final | rewrite run_Inner]; reflexivity.
Qed.

Lemma error_means_nil_digest_witness :
  failure scenario_Inner <> None /\ digest scenario_Inner = None.
Proof.
  assert (H : failure scenario_Inner <> None) by (vm_compute; discriminate).
  split; [exact H|].
  apply (error_means_nil_digest (Mem.handle Mem.sum8) (New scenario_mode)
           scenario_root scenario_state scenario_Inner).
  - right; reflexivity.
  - exact H.
Defined.

(* ------------------------------------------------------------------ *)
(** ** C10 *)

(** C10: a call of [Final] or [Inner] makes no call at all and leaves the
    caller's objects as they were: it does not invoke the base hash
    factory, reads no message hop, asks no chaining hop for its degree or
    a child, and does not call [SetChainingValue]. *)
Theorem Final_Inner_no_effect {W : Type} (E : env W) (e : Encoder)
    (hop : Hop) (w : W) :
  (trace (run E (Final e hop) w) = [] /\
   world (run E (Final e hop) w) = w /\
   existsb is_hasher_call (trace (run E (Final e hop) w)) = false /\
   existsb is_read (trace (run E (Final e hop) w)) = false /\
   existsb is_enumeration (trace (run E (Final e hop) w)) = false /\
   existsb is_set_chaining_value (trace (run E (Final e hop) w)) = false) /\
  (trace (run E (Inner e hop) w) = [] /\
   world (run E (Inner e hop) w) = w /\
   existsb is_hasher_call (trace (run E (Inner e hop) w)) = false /\
   existsb is_read (trace (run E (Inner e hop) w)) = false /\
   existsb is_enumeration (trace (run E (Inner e hop) w)) = false /\
   existsb is_set_chaining_value (trace (run E (Inner e hop) w)) = false).
Proof. rewrite ?run_Final, ?run_Inner. repeat split. Qed.

(* ================================================================== *)
(** * BlockSize.Value on every input *)

Lemma pow2_split (w : Z) : 0 < w -> 2 ^ w = 2 * 2 ^ (w - 1).
Proof.
  intros Hw. replace w with (Z.succ (w - 1)) at 1 by lia.
  apply Z.pow_succ_r. lia.
Qed.

(** A product wraps to the same value whether or not its left factor was
    wrapped first. *)
Lemma wrap_mul_l (w a b : Z) :
  0 < w -> GoInt.wrap w (GoInt.wrap w a * b) = GoInt.wrap w (a * b).
Proof.
  intros Hw. unfold GoInt.wrap.
  assert (HM : 0 < 2 ^ w) by (apply Z.pow_pos_nonneg; lia).
  set (M := 2 ^ w) in *. set (H := 2 ^ (w - 1)).
  f_equal.
  rewrite (Z.mod_eq (a + H) M) by lia.
  replace ((a + H - M * ((a + H) / M) - H) * b + H)
    with (a * b + H + (- ((a + H) / M) * b) * M) by ring.
  apply Z_mod_plus_full.
Qed.

(** What wraps to 0 is a multiple of [2^w]. *)
Lemma wrap_zero (w z : Z) :
  0 < w -> GoInt.wrap w z = 0 -> exists q, z = q * 2 ^ w.
Proof.
  intros Hw. unfold GoInt.wrap. intros Hz.
  assert (HM : 0 < 2 ^ w) by (apply Z.pow_pos_nonneg; lia).
  exists ((z + 2 ^ (w - 1)) / 2 ^ w).
  pose proof (Z.mod_eq (z + 2 ^ (w - 1)) (2 ^ w)) as Heq.
  lia.
Qed.

(** A power of two times an odd number is such a product in one way. *)
Lemma odd_part_unique_lt (e1 e2 m1 m2 : Z) :
  0 <= e1 < e2 ->
  2 ^ e1 * (2 * m1 + 1) <> 2 ^ e2 * (2 * m2 + 1).
Proof.
  intros He Heq.
  assert (Hpos : 0 < 2 ^ e1) by (apply Z.pow_pos_nonneg; lia).
  replace e2 with (e1 + Z.succ (e2 - e1 - 1)) in Heq by lia.
  rewrite Z.pow_add_r, Z.pow_succ_r in Heq by lia.
  rewrite <- Z.mul_assoc in Heq.
  apply Z.mul_reg_l in Heq; [|lia].
  set (k := 2 ^ (e2 - e1 - 1)) in Heq.
  replace (2 * k * (2 * m2 + 1)) with (2 * (k * (2 * m2 + 1))) in Heq by ring.
  lia.
Qed.

Lemma odd_part_unique (e1 e2 m1 m2 : Z) :
  0 <= e1 -> 0 <= e2 ->
  2 ^ e1 * (2 * m1 + 1) = 2 ^ e2 * (2 * m2 + 1) ->
  e1 = e2 /\ m1 = m2.
Proof.
  intros He1 He2 Heq.
  destruct (Z.lt_trichotomy e1 e2) as [Hlt | [Hee | Hgt]].
  - exfalso. apply (odd_part_unique_lt e1 e2 m1 m2); [lia | exact Heq].
  - subst e2. split; [reflexivity|].
    assert (Hpos : 0 < 2 ^ e1) by (apply Z.pow_pos_nonneg; lia).
    apply Z.mul_reg_l in Heq; lia.
  - exfalso. apply (odd_part_unique_lt e2 e1 m2 m1); [lia | symmetry; exact Heq].
Qed.

(** On any width, [Value] is the documented size wrapped to the width. *)
Lemma Value_on_wraps (w : Z) (bs : BlockSize) :
  10 <= w -> wf_BlockSize bs ->
  Value_on w bs = GoInt.wrap w (documented_size bs).
Proof.
  unfold wf_BlockSize, documented_size, Value_on.
  destruct bs as [m e]; cbn [Mantissa Exponent].
  intros Hw [Hm He]. assert (He' := He). unfold uint8 in He'.
  rewrite odd_factor by assumption.
  rewrite shl_1 by lia.
  unfold GoInt.mul. apply wrap_mul_l. lia.
Qed.

(** X7: for every block size with [uint8] fields, [Value] returns
    [2^Exponent * (2*Mantissa + 1)] reduced to the signed 64-bit range:
    the number of [-2^63 .. 2^63-1] congruent to it modulo [2^64]. *)
Theorem Value_is_wrapped_size (bs : BlockSize) :
  wf_BlockSize bs ->
  Value bs = GoInt.wrap 64 (documented_size bs) /\
  GoInt.in_range 64 (Value bs) /\
  (Value bs - documented_size bs) mod 2 ^ 64 = 0.
Proof.
  intros Hwf. unfold Value, GoInt.intSize.
  rewrite Value_on_wraps by (assumption || lia).
  split; [reflexivity|].
  unfold GoInt.wrap, GoInt.in_range.
  set (d := documented_size bs).
  change (2 ^ (64 - 1)) with 9223372036854775808.
  change (2 ^ 64) with 18446744073709551616.
  pose proof (Z.mod_pos_bound (d + 9223372036854775808)
                18446744073709551616 eq_refl) as Hb.
  split; [lia|].
  rewrite (Z.mod_eq (d + 9223372036854775808) 18446744073709551616)
    by discriminate.
  set (q := (d + 9223372036854775808) / 18446744073709551616).
  replace (d + 9223372036854775808 - 18446744073709551616 * q
           - 9223372036854775808 - d)
    with (- q * 18446744073709551616) by ring.
  apply Z_mod_mult.
Qed.

Lemma Value_is_wrapped_size_witness :
  Value (mkBlockSize 255 60) = GoInt.wrap 64 (documented_size (mkBlockSize 255 60)) /\
  GoInt.in_range 64 (Value (mkBlockSize 255 60)) /\
  (Value (mkBlockSize 255 60) - documented_size (mkBlockSize 255 60)) mod 2 ^ 64 = 0.
Proof.
  apply (Value_is_wrapped_size (mkBlockSize 255 60)).
  unfold wf_BlockSize, uint8; simpl; lia.
Defined.

(** X8: for a block size with [uint8] fields, [Value] returns 0 exactly
    when the exponent is 64 or more. *)
Theorem Value_zero_iff (bs : BlockSize) :
  wf_BlockSize bs -> (Value bs = 0 <-> 64 <= Exponent bs).
Proof.
  intros Hwf. split.
  - intros Hz. unfold Value, GoInt.intSize in Hz.
    rewrite Value_on_wraps in Hz by (assumption || lia).
    apply wrap_zero in Hz; [|lia]. destruct Hz as [q Hq].
    destruct (Z_lt_le_dec (Exponent bs) 64) as [Hlt | Hge]; [exfalso | exact Hge].
    destruct Hwf as [_ He]. unfold uint8 in He. unfold documented_size in Hq.
    assert (Hpos : 0 < 2 ^ Exponent bs) by (apply Z.pow_pos_nonneg; lia).
    replace 64 with (Exponent bs + Z.succ (64 - Exponent bs - 1)) in Hq by lia.
    rewrite Z.pow_add_r, Z.pow_succ_r in Hq by lia.
    set (k := 2 ^ (64 - Exponent bs - 1)) in Hq.
    replace (q * (2 ^ Exponent bs * (2 * k)))
      with (2 ^ Exponent bs * (2 * (q * k))) in Hq by ring.
    apply Z.mul_reg_l in Hq; lia.
  - intros He. apply Value_on_large_exponent; [reflexivity | exact He].
Qed.

Lemma Value_zero_iff_witness :
  Value (mkBlockSize 9 64) = 0 <-> 64 <= Exponent (mkBlockSize 9 64).
Proof.
  apply (Value_zero_iff (mkBlockSize 9 64)).
  unfold wf_BlockSize, uint8; simpl; lia.
Defined.

(** X9: on an [int] of 64 bits, two block sizes with [uint8] fields whose
    documented sizes are
    below [2^63] and for which [Value] returns the same number have the
    same mantissa and the same exponent. *)
Theorem Value_injective (bs1 bs2 : BlockSize) :
  wf_BlockSize bs1 -> wf_BlockSize bs2 ->
  documented_size bs1 < 2 ^ 63 -> documented_size bs2 < 2 ^ 63 ->
  Value bs1 = Value bs2 -> bs1 = bs2.
Proof.
  intros Hwf1 Hwf2 Hfit1 Hfit2 Heq.
  destruct (Value_fits bs1 Hwf1 Hfit1) as [H1 _].
  destruct (Value_fits bs2 Hwf2 Hfit2) as [H2 _].
  rewrite H1, H2 in Heq. unfold documented_size in Heq.
  destruct Hwf1 as [_ He1], Hwf2 as [_ He2]. unfold uint8 in He1, He2.
  destruct bs1 as [m1 e1], bs2 as [m2 e2]; cbn [Mantissa Exponent] in *.
  destruct (odd_part_unique e1 e2 m1 m2) as [-> ->]; [lia | lia | exact Heq |].
  reflexivity.
Qed.

Lemma Value_injective_witness : mkBlockSize 3 2 = mkBlockSize 3 2.
Proof.
  apply (Value_injective (mkBlockSize 3 2) (mkBlockSize 3 2)).
  - unfold wf_BlockSize, uint8; simpl; lia.
  - unfold wf_BlockSize, uint8; simpl; lia.
  - vm_compute; reflexivity.
  - vm_compute; reflexivity.
  - reflexivity.
Defined.

(** X10: on an [int] of 64 bits, where the documented size is below [2^63],
    the fields are read
    back from the value: [Value] is a multiple of [2^Exponent], and its
    quotient by [2^Exponent] is the odd number [2*Mantissa + 1]. *)
Theorem Value_decodes (bs : BlockSize) :
  wf_BlockSize bs -> documented_size bs < 2 ^ 63 ->
  Value bs mod 2 ^ Exponent bs = 0 /\
  Value bs / 2 ^ Exponent bs = 2 * Mantissa bs + 1 /\
  (Value bs / 2 ^ Exponent bs - 1) / 2 = Mantissa bs.
Proof.
  intros Hwf Hfit.
  destruct (Value_fits bs Hwf Hfit) as [-> _].
  destruct Hwf as [_ He]. unfold uint8 in He. unfold documented_size.
  assert (Hpos : 0 < 2 ^ Exponent bs) by (apply Z.pow_pos_nonneg; lia).
  rewrite (Z.mul_comm (2 ^ Exponent bs)).
  rewrite Z_mod_mult, Z.div_mul by lia.
  repeat split.
  replace (2 * Mantissa bs + 1 - 1) with (Mantissa bs * 2) by ring.
  apply Z.div_mul. discriminate.
Qed.

Lemma Value_decodes_witness :
  Value (mkBlockSize 3 2) mod 2 ^ Exponent (mkBlockSize 3 2) = 0 /\
  Value (mkBlockSize 3 2) / 2 ^ Exponent (mkBlockSize 3 2)
  = 2 * Mantissa (mkBlockSize 3 2) + 1 /\
  (Value (mkBlockSize 3 2) / 2 ^ Exponent (mkBlockSize 3 2) - 1) / 2
  = Mantissa (mkBlockSize 3 2).
Proof.
  apply (Value_decodes (mkBlockSize 3 2)).
  - unfold wf_BlockSize, uint8; simpl; lia.
  - vm_compute; reflexivity.
Defined.

(** X11: at the exponent 63 [Value] returns [-2^63] for every mantissa: the
    product keeps the sign bit alone. *)
Theorem Value_exponent_63 (m : Z) :
  uint8 m -> Value (mkBlockSize m 63) = - 2 ^ 63.
Proof.
  intros Hm. unfold Value, GoInt.intSize.
  rewrite Value_on_wraps by (try split; unfold uint8 in *; cbn; lia).
  unfold documented_size; cbn [Mantissa Exponent]. unfold GoInt.wrap.
  replace (2 ^ 63 * (2 * m + 1) + 2 ^ (64 - 1)) with (0 + (m + 1) * 2 ^ 64)
    by (change (2 ^ 64) with (2 * 2 ^ 63); change (64 - 1) with 63; ring).
  rewrite Z_mod_plus_full. reflexivity.
Qed.

Lemma Value_exponent_63_witness : Value (mkBlockSize 200 63) = - 2 ^ 63.
Proof. apply (Value_exponent_63 200). unfold uint8; lia. Defined.

(** X12: on an [int] of 64 bits, for a fixed exponent [Value] grows strictly
    with the mantissa, as
    long as the documented size of the larger mantissa is below [2^63]. *)
Theorem Value_monotonic_mantissa (m1 m2 e : Z) :
  uint8 m1 -> uint8 m2 -> uint8 e -> m1 < m2 ->
  documented_size (mkBlockSize m2 e) < 2 ^ 63 ->
  Value (mkBlockSize m1 e) < Value (mkBlockSize m2 e).
Proof.
  intros Hm1 Hm2 He Hlt Hfit.
  assert (Hm1' := Hm1). assert (He' := He). unfold uint8 in Hm1', He'.
  assert (Hpos : 0 < 2 ^ e) by (apply Z.pow_pos_nonneg; lia).
  assert (Hsz : documented_size (mkBlockSize m1 e)
                < documented_size (mkBlockSize m2 e)).
  { unfold documented_size; cbn [Mantissa Exponent].
    apply Z.mul_lt_mono_pos_l; lia. }
  destruct (Value_fits (mkBlockSize m1 e)) as [-> _];
    [split; assumption | lia |].
  destruct (Value_fits (mkBlockSize m2 e)) as [-> _];
    [split; assumption | lia |].
  exact Hsz.
Qed.

Lemma Value_monotonic_mantissa_witness :
  Value (mkBlockSize 3 2) < Value (mkBlockSize 4 2).
Proof.
  apply (Value_monotonic_mantissa 3 4 2); unfold uint8; try lia.
  vm_compute; reflexivity.
Defined.

(** X13: on an [int] of 32 bits, [Value] returns the documented size where
    that is below [2^31]. *)
Theorem Value_on_32_exact (bs : BlockSize) :
  wf_BlockSize bs -> documented_size bs < 2 ^ 31 ->
  Value_on 32 bs = documented_size bs.
Proof.
  intros Hwf Hfit. apply Value_on_exact; [lia | assumption | exact Hfit].
Qed.

Lemma Value_on_32_exact_witness :
  Value_on 32 (mkBlockSize 3 2) = documented_size (mkBlockSize 3 2).
Proof.
  apply (Value_on_32_exact (mkBlockSize 3 2)).
  - unfold wf_BlockSize, uint8; simpl; lia.
  - vm_compute; reflexivity.
Defined.

(** X14: on an [int] of 32 bits, [Value] returns 0 from the exponent 32
    on, and for [uint8] fields only then. *)
Theorem Value_on_32_zero_iff (bs : BlockSize) :
  wf_BlockSize bs -> (Value_on 32 bs = 0 <-> 32 <= Exponent bs).
Proof.
  intros Hwf. split.
  - intros Hz.
    rewrite Value_on_wraps in Hz by (assumption || lia).
    apply wrap_zero in Hz; [|lia]. destruct Hz as [q Hq].
    destruct (Z_lt_le_dec (Exponent bs) 32) as [Hlt | Hge]; [exfalso | exact Hge].
    destruct Hwf as [_ He]. unfold uint8 in He. unfold documented_size in Hq.
    assert (Hpos : 0 < 2 ^ Exponent bs) by (apply Z.pow_pos_nonneg; lia).
    replace 32 with (Exponent bs + Z.succ (32 - Exponent bs - 1)) in Hq by lia.
    rewrite Z.pow_add_r, Z.pow_succ_r in Hq by lia.
    set (k := 2 ^ (32 - Exponent bs - 1)) in Hq.
    replace (q * (2 ^ Exponent bs * (2 * k)))
      with (2 ^ Exponent bs * (2 * (q * k))) in Hq by ring.
    apply Z.mul_reg_l in Hq; lia.
  - intros He. apply Value_on_large_exponent; [reflexivity | exact He].
Qed.

Lemma Value_on_32_zero_iff_witness :
  Value_on 32 (mkBlockSize 9 40) = 0 <-> 32 <= Exponent (mkBlockSize 9 40).
Proof.
  apply (Value_on_32_zero_iff (mkBlockSize 9 40)).
  unfold wf_BlockSize, uint8; simpl; lia.
Defined.
